(** * SATB mark queue: in-place filtering of the write-barrier log

    A shallow embedding of [SATBMarkQueue::apply_filter] and of the
    operations declared around it in
    [src/hotspot/share/gc/g1/satbMarkQueue.hpp], with the properties the
    specification states about them. *)

From stdpp Require Import base option numbers list.

(** ** Data model *)

(** An entry is a [void*]: an address-sized opaque value. *)
Abbreviation entry := N (only parsing).

(** Modelled from the spec: the base class [PtrQueue] (gc/g1/ptrQueue.hpp)
    is not among the sources. The spec gives its state: an optional buffer
    of fixed capacity C, a cursor [index] with [0 <= index <= C] counted in
    entries, and a boolean [active] flag. The buffer is the list of its C
    slots, slot 0 first; [None] is the [NULL] buffer. *)
Record SATBMarkQueue := mkSATBMarkQueue {
  _buf : option (list entry);
  _index : nat;
  _capacity : nat;
  _active : bool
}.

Definition index (q : SATBMarkQueue) : nat := _index q.

Definition capacity (q : SATBMarkQueue) : nat := _capacity q.

Definition set_index (new_index : nat) (q : SATBMarkQueue) : SATBMarkQueue :=
  {| _buf := _buf q; _index := new_index;
     _capacity := _capacity q; _active := _active q |}.

(** The stores that [apply_filter] makes through [buf] land in the buffer
    the queue owns. *)
Definition set_buf (slots : list entry) (q : SATBMarkQueue) : SATBMarkQueue :=
  {| _buf := Some slots; _index := _index q;
     _capacity := _capacity q; _active := _active q |}.

(** The data-model invariant: the cursor is within the capacity, and a
    present buffer has exactly [capacity] slots. *)
Definition queue_ok (q : SATBMarkQueue) : Prop :=
  index q ≤ capacity q ∧
  match _buf q with
  | Some buf => length buf = capacity q
  | None => True
  end.

(** The entries of the active range [[index, C)], low slot first. *)
Definition active_range (q : SATBMarkQueue) : list entry :=
  match _buf q with
  | Some slots => drop (index q) slots
  | None => []
  end.

(** ** The two-finger compaction *)

(** The memory the loops of [apply_filter] work on: the slots of the
    buffer, and a ghost log of the slots whose entry has been handed to
    [filter_out], most recent first. *)
Record scan := mkScan {
  slots : list entry;
  examined : list nat
}.

Definition note (i : nat) (m : scan) : scan :=
  {| slots := slots m; examined := i :: examined m |}.

Definition store (i : nat) (e : entry) (m : scan) : scan :=
  {| slots := <[i:=e]> (slots m); examined := examined m |}.

Section Filter.
(** [filter_out e] is true when entry [e] is to be removed. *)
Variable filter_out : entry → bool.

(** The inner loop,
    [while (src < --dst) { if (filter_out( *dst)) { *dst = entry; break; } }],
    by recursion on [dst]. It returns the final [dst]. A result of [None]
    is a read outside the buffer or a [dst] decremented below slot 0. *)
Fixpoint discard_search (src : nat) (e : entry) (dst : nat) (m : scan)
    : option (nat * scan) :=
  match dst with
  | 0 => None
  | S dst' =>
      if src <? dst' then
        x ← slots m !! dst';
        let m' := note dst' m in
        if filter_out x then Some (dst', store dst' e m')
        else discard_search src e dst' m'
      else Some (dst', m)
  end.

(** The outer loop, [for ( ; src < dst; ++src) { ... }]. [fuel] bounds the
    number of iterations; [None] is also the result when it runs out. *)
Fixpoint keeper_search (fuel src dst : nat) (m : scan)
    : option (nat * scan) :=
  if src <? dst then
    match fuel with
    | 0 => None
    | S fuel' =>
        e ← slots m !! src;
        let m' := note src m in
        if negb (filter_out e) then
          '(dst', m'') ← discard_search src e dst m';
          keeper_search fuel' (S src) dst' m''
        else keeper_search fuel' (S src) dst m'
    end
  else Some (dst, m).

(** [SATBMarkQueue::apply_filter], with the log of examined slots. The
    [assert(src <= dst, "invariant")] is a failure when it does not
    hold, as in a build with assertions; the properties below are stated
    for queues with [index <= capacity], where it holds. *)
Definition apply_filter_scan (q : SATBMarkQueue)
    : option (SATBMarkQueue * list nat) :=
  match _buf q with
  | None => Some (q, [])
  | Some buf =>
      let src := index q in
      let dst := capacity q in
      if src <=? dst then
        '(dst', m) ← keeper_search (dst - src) src dst (mkScan buf []);
        Some (set_index dst' (set_buf (slots m) q), examined m)
      else None
  end.

Definition apply_filter (q : SATBMarkQueue) : option SATBMarkQueue :=
  fst <$> apply_filter_scan q.

End Filter.

(** ** The queue set *)

(** [SATBBufferClosure]: its one operation, [do_buffer(buffer, size)],
    processes a range of entries and acts on the closure's own state. *)
Record SATBBufferClosure (St : Type) := mkClosure {
  do_buffer : list entry → St → St
}.
Arguments do_buffer {St} _ _ _.
Arguments mkClosure {St} _.

(** The closure that records the ranges it is given, oldest first. *)
Definition recorder : SATBBufferClosure (list (list entry)) :=
  mkClosure (λ range calls, calls ++ [range]).

(** [SATBMarkQueueFilter]: its one operation, [filter(queue)]. *)
Module SATBMarkQueueFilter.
Record t := mk { filter : SATBMarkQueue → option SATBMarkQueue }.
End SATBMarkQueueFilter.

(** Modelled from the spec: the policy that prunes a queue's buffer in
    place by a predicate on entries (the concrete subclasses of
    [SATBMarkQueueFilter] are not among the sources). *)
Definition predicate_filter (filter_out : entry → bool)
    : SATBMarkQueueFilter.t :=
  SATBMarkQueueFilter.mk (apply_filter filter_out).

(** Modelled from the spec: a buffer in the completed set ([BufferNode],
    gc/g1/ptrQueue.hpp, is not among the sources) is its storage with its
    index. *)
Record BufferNode := mkBufferNode {
  node_index : nat;
  node_buffer : list entry
}.

Definition node_active_range (nd : BufferNode) : list entry :=
  drop (node_index nd) (node_buffer nd).

(** Modelled from the spec: the completed set and the free list of the
    base class [PtrQueueSet] (gc/g1/ptrQueue.hpp, not among the sources);
    the completed set is popped at its head and pushed at its end. The
    shared queue and the filter are the fields of [SATBMarkQueueSet] in the
    source. *)
Record SATBMarkQueueSet := mkSATBMarkQueueSet {
  _shared_satb_queue : SATBMarkQueue;
  _filter : SATBMarkQueueFilter.t;
  _completed_buffers : list BufferNode;
  _buf_free_list : list (list entry)
}.

(** [SATBMarkQueueSet::filter(queue)] is [_filter->filter(queue)]. *)
Definition SATBMarkQueueSet_filter
    (qset : SATBMarkQueueSet) (queue : SATBMarkQueue) : option SATBMarkQueue :=
  SATBMarkQueueFilter.filter (_filter qset) queue.

(** [SATBMarkQueue::filter()] is [qset()->filter(this)]. *)
Definition SATBMarkQueue_filter (qset : SATBMarkQueueSet) (q : SATBMarkQueue)
    : option SATBMarkQueue :=
  SATBMarkQueueSet_filter qset q.

(** Modelled from the spec: the push on the completed collection and the
    push on the free list of [PtrQueueSet]. *)
Definition enqueue_complete_buffer (nd : BufferNode) (qset : SATBMarkQueueSet)
    : SATBMarkQueueSet :=
  {| _shared_satb_queue := _shared_satb_queue qset;
     _filter := _filter qset;
     _completed_buffers := _completed_buffers qset ++ [nd];
     _buf_free_list := _buf_free_list qset |}.

(** Modelled from the spec: see [enqueue_complete_buffer]. *)
Definition deallocate_buffer (buf : list entry) (qset : SATBMarkQueueSet)
    : SATBMarkQueueSet :=
  {| _shared_satb_queue := _shared_satb_queue qset;
     _filter := _filter qset;
     _completed_buffers := _completed_buffers qset;
     _buf_free_list := buf :: _buf_free_list qset |}.

(** Modelled from the spec: the "empty/absent state" a queue is reset to,
    no buffer and [index == C]. *)
Definition release (q : SATBMarkQueue) : SATBMarkQueue :=
  {| _buf := None; _index := _capacity q;
     _capacity := _capacity q; _active := _active q |}.

(** Modelled from the spec: [SATBMarkQueue::flush] is declared in the
    source and defined in satbMarkQueue.cpp, which is not among the
    sources. The spec: "filters the current buffer; if the resulting active
    range is non-empty, transfers it to the completed set; otherwise
    returns it directly to the free list. Resets the queue to the
    empty/absent state." The queue is one of a thread, not the shared queue
    of [qset]. *)
Definition flush (q : SATBMarkQueue) (qset : SATBMarkQueueSet)
    : option (SATBMarkQueue * SATBMarkQueueSet) :=
  q1 ← SATBMarkQueue_filter qset q;
  let qset' :=
    match _buf q1 with
    | Some buf =>
        if index q1 <? capacity q1
        then enqueue_complete_buffer (mkBufferNode (index q1) buf) qset
        else deallocate_buffer buf qset
    | None => qset
    end in
  Some (release q1, qset').

(** Modelled from the spec:
    [SATBMarkQueueSet::apply_closure_to_completed_buffer] is declared in
    the source and defined in satbMarkQueue.cpp. The source's comment: "If
    there exists some completed buffer, pop and process it, and return
    true. Otherwise return false. Processing a buffer consists of applying
    the closure to the active range of the buffer". The spec adds that the
    buffer is then recycled to the free list. The result is the boolean,
    the closure's state and the queue set. *)
Definition apply_closure_to_completed_buffer {St : Type}
    (cl : SATBBufferClosure St) (st : St) (qset : SATBMarkQueueSet)
    : bool * St * SATBMarkQueueSet :=
  match _completed_buffers qset with
  | nd :: rest =>
      (true, do_buffer cl (node_active_range nd) st,
       {| _shared_satb_queue := _shared_satb_queue qset;
          _filter := _filter qset;
          _completed_buffers := rest;
          _buf_free_list := node_buffer nd :: _buf_free_list qset |})
  | [] => (false, st, qset)
  end.

(** Modelled from the spec: the queues of the live mutator threads, which
    an external thread registry enumerates, and the queue set. *)
Record SATBState := mkSATBState {
  _thread_queues : list SATBMarkQueue;
  _satb_mark_queue_set : SATBMarkQueueSet
}.

(** Modelled from the spec: [SATBMarkQueueSet::abandon_partial_marking] is
    declared in the source and defined in satbMarkQueue.cpp. The spec:
    "discards every currently completed buffer and resets every live queue
    to the empty/absent state". The discarded completed buffers go to the
    free list; the spec does not say where the buffers of the queues go,
    and the model does not keep them. *)
Definition abandon_partial_marking (vm : SATBState) : SATBState :=
  let qset := _satb_mark_queue_set vm in
  {| _thread_queues := release <$> _thread_queues vm;
     _satb_mark_queue_set :=
       {| _shared_satb_queue := release (_shared_satb_queue qset);
          _filter := _filter qset;
          _completed_buffers := [];
          _buf_free_list :=
            (node_buffer <$> _completed_buffers qset) ++ _buf_free_list qset |} |}.

(** ** The append of the write barrier *)

(** Modelled from the spec: the append of the write barrier
    ([PtrQueue::enqueue], gc/g1/ptrQueue.hpp, is not among the sources).
    The spec: "New entries are appended by decrementing [index] (fills from
    the top down)"; "When [active == false], no enqueue may occur"; an
    append at [index == 0] is rejected by the fast path. The slow path and
    the allocation of a buffer are not modelled: [None]. *)
Definition append (ptr : entry) (q : SATBMarkQueue) : option SATBMarkQueue :=
  if _active q then
    match _buf q with
    | Some buf =>
        match index q with
        | 0 => None
        | S i => Some (set_index i (set_buf (<[i:=ptr]> buf) q))
        end
    | None => None
    end
  else None.

(** ** Definitions for the statements *)

(** [slice a b l] is the list of the slots [[a, b)] of [l]. *)
Definition slice (a b : nat) (l : list entry) : list entry :=
  take (b - a) (drop a l).

(** The entries [apply_filter] has to retain: those that [filter_out]
    does not remove. *)
Definition retained (filter_out : entry → bool) (l : list entry)
    : list entry :=
  filter (λ e, filter_out e = false) l.
Arguments retained : simpl never.


(** The addresses and the predicate of the scenarios. *)
Definition addr_A : entry := 16.
Definition addr_B : entry := 32.
Definition addr_C : entry := 48.
Definition addr_D : entry := 64.

Definition discards_B_D (e : entry) : bool :=
  (e =? addr_B)%N || (e =? addr_D)%N.

Definition empty4 : SATBMarkQueue :=
  mkSATBMarkQueue (Some [0; 0; 0; 0]%N) 4 4 true.

Definition full4 : SATBMarkQueue :=
  mkSATBMarkQueue (Some [addr_D; addr_C; addr_B; addr_A]) 0 4 true.

Definition tail4 : SATBMarkQueue :=
  mkSATBMarkQueue (Some [addr_B; addr_D; addr_B; addr_A]) 2 4 true.

Definition idle4 : SATBMarkQueue := mkSATBMarkQueue None 4 4 false.

Definition qset0 : SATBMarkQueueSet :=
  mkSATBMarkQueueSet idle4 (predicate_filter discards_B_D) [] [].

Definition kept4 : SATBMarkQueue :=
  mkSATBMarkQueue (Some [addr_B; addr_D; addr_C; addr_A]) 2 4 true.

Definition dead4 : SATBMarkQueue :=
  mkSATBMarkQueue (Some [addr_A; addr_B; addr_D; addr_B]) 1 4 true.

Definition discards_A (e : entry) : bool := (e =? addr_A)%N.

Definition discards_B (e : entry) : bool := (e =? addr_B)%N.

(** ** Slices of a buffer *)

Lemma slice_nil a l : slice a a l = [].
Proof. unfold slice. by rewrite Nat.sub_diag. Qed.

Lemma slice_length a b l : b ≤ length l → length (slice a b l) = b - a.
Proof. intros Hb. unfold slice. rewrite length_take, length_drop. lia. Qed.

Lemma slice_cons a b l x :
  l !! a = Some x → a < b → slice a b l = x :: slice (S a) b l.
Proof.
  intros Hx Hab. unfold slice.
  rewrite (drop_S l x a Hx).
  replace (b - a) with (S (b - S a)) by lia. done.
Qed.

Lemma slice_app a b c l :
  a ≤ b → b ≤ c → slice a c l = slice a b l ++ slice b c l.
Proof.
  intros Hab Hbc. unfold slice.
  replace (c - a) with ((b - a) + (c - b)) by lia.
  rewrite <- take_take_drop, drop_drop.
  by replace (a + (b - a)) with b by lia.
Qed.

Lemma slice_snoc a b l x :
  l !! b = Some x → a ≤ b → slice a (S b) l = slice a b l ++ [x].
Proof.
  intros Hx Hab. rewrite (slice_app a b (S b)) by lia.
  by rewrite (slice_cons b (S b) l x), slice_nil by (done || lia).
Qed.

Lemma slice_to_end a l : slice a (length l) l = drop a l.
Proof. unfold slice. apply take_ge. rewrite length_drop. lia. Qed.

Lemma slice_insert_ge a b i x l : b ≤ i → slice a b (<[i:=x]> l) = slice a b l.
Proof.
  intros Hbi. unfold slice.
  destruct (decide (a ≤ b)) as [Hab|Hab].
  - rewrite drop_insert_ge by lia. apply take_insert_ge. lia.
  - by replace (b - a) with 0 by lia.
Qed.

Lemma slice_insert_lt a b i x l : i < a → slice a b (<[i:=x]> l) = slice a b l.
Proof. intros Hia. unfold slice. by rewrite drop_insert_lt. Qed.

Lemma slice_insert_head a b x l :
  a < b → a < length l → slice a b (<[a:=x]> l) = x :: slice (S a) b l.
Proof.
  intros Hab Hal.
  rewrite (slice_cons a b _ x) by (by rewrite ?list_lookup_insert_eq).
  by rewrite slice_insert_lt by lia.
Qed.

Lemma slice_ext a b l l' : drop a l' = drop a l → slice a b l' = slice a b l.
Proof. unfold slice. by intros ->. Qed.

Lemma take_le_ext n k (l l' : list entry) :
  n ≤ k → take k l' = take k l → take n l' = take n l.
Proof.
  intros Hnk H. apply (f_equal (take n)) in H.
  rewrite !take_take in H. by replace (n `min` k) with n in H by lia.
Qed.

Lemma drop_ge_ext n k (l l' : list entry) :
  k ≤ n → drop k l' = drop k l → drop n l' = drop n l.
Proof.
  intros Hnk H. apply (f_equal (drop (n - k))) in H.
  rewrite !drop_drop in H. by replace (k + (n - k)) with n in H by lia.
Qed.

Lemma seq_snoc_perm a n b (t : list nat) :
  a + n = b → seq a n ++ b :: t ≡ₚ seq a (S n) ++ t.
Proof.
  intros <-. rewrite seq_S, <- app_assoc. done.
Qed.

Lemma seq_cons_perm a b (t : list nat) :
  a < b → seq (S a) (b - S a) ++ a :: t ≡ₚ seq a (b - a) ++ t.
Proof.
  intros Hab. replace (b - a) with (S (b - S a)) by lia.
  simpl. by rewrite <- Permutation_middle.
Qed.

Lemma seq_split_perm a d b (t : list nat) :
  a < d → d < b →
  seq (S a) (d - S a) ++ seq d (b - d) ++ a :: t ≡ₚ seq a (b - a) ++ t.
Proof.
  intros Had Hdb. rewrite <- (seq_cons_perm a b t) by lia.
  replace (b - S a) with ((d - S a) + (b - d)) by lia.
  rewrite seq_app. replace (S a + (d - S a)) with d by lia.
  by rewrite <- !app_assoc.
Qed.

(** ** The loops of [apply_filter] *)

Section Loops.
Variable filter_out : entry → bool.

Lemma retained_keep x l :
  filter_out x = false →
  retained filter_out (x :: l) = x :: retained filter_out l.
Proof. intros Hx. unfold retained. by rewrite filter_cons_True. Qed.

Lemma retained_drop x l :
  filter_out x = true → retained filter_out (x :: l) = retained filter_out l.
Proof.
  intros Hx. unfold retained. rewrite filter_cons_False; [done|congruence].
Qed.

Lemma retained_app l k :
  retained filter_out (l ++ k) = retained filter_out l ++ retained filter_out k.
Proof. apply filter_app. Qed.

Lemma retained_all l :
  Forall (λ e, filter_out e = false) l → retained filter_out l = l.
Proof.
  induction 1 as [|x l Hx _ IH]; [done|].
  by rewrite retained_keep, IH.
Qed.

Lemma retained_Forall l :
  Forall (λ e, filter_out e = false) (retained filter_out l).
Proof.
  unfold retained. apply Forall_forall. intros x Hx.
  by apply list_elem_of_filter in Hx as [? _].
Qed.

(** The search for an entry to discard: it stops at the highest slot of
    [(src, dst)] whose entry is filtered out and overwrites it with the
    keeper, or falls down to [src] when there is none. Every slot it
    passes holds an entry to retain. *)
Lemma discard_search_spec src e dst m :
  src < dst → dst ≤ length (slots m) →
  ∃ d m', discard_search filter_out src e dst m = Some (d, m') ∧
    src ≤ d < dst ∧
    Forall (λ x, filter_out x = false) (slice (S d) dst (slots m)) ∧
    ((d = src ∧ slots m' = slots m ∧
      examined m' ≡ₚ seq (S src) (dst - S src) ++ examined m) ∨
     (src < d ∧ (∃ x, slots m !! d = Some x ∧ filter_out x = true) ∧
      slots m' = <[d:=e]> (slots m) ∧
      examined m' ≡ₚ seq d (dst - d) ++ examined m)).
Proof.
  revert m. induction dst as [|dst IH]; intros m Hsrc Hlen; [lia|].
  simpl. destruct (Nat.ltb_spec src dst) as [Hlt|Hge].
  - destruct (lookup_lt_is_Some_2 (slots m) dst) as [x Hx]; [lia|].
    rewrite Hx. simpl. destruct (filter_out x) eqn:Hfx.
    + eexists _, _. split; [done|]. split; [lia|].
      rewrite slice_nil. split; [constructor|]. right.
      split; [done|]. split; [by exists x|]. split; [done|]. simpl.
      by replace (S dst - dst) with 1 by lia.
    + destruct (IH (note dst m) Hlt) as (d & m' & Hrun & Hd & Hall & Hcase).
      { simpl. lia. }
      exists d, m'. split; [done|]. split; [lia|]. simpl in *. split.
      { rewrite (slice_snoc _ _ _ x) by (done || lia).
        apply Forall_app. split; [done|]. by repeat constructor. }
      destruct Hcase as [(-> & Hs & Hex)|(Hsd & Hx' & Hs & Hex)].
      * left. split; [done|]. split; [done|]. rewrite Hex.
        replace (dst - src) with (S (dst - S src)) by lia.
        apply seq_snoc_perm. lia.
      * right. split; [done|]. split; [done|]. split; [done|]. rewrite Hex.
        replace (S dst - d) with (S (dst - d)) by lia.
        apply seq_snoc_perm. lia.
  - assert (dst = src) as -> by lia.
    eexists _, _. split; [done|]. split; [lia|].
    rewrite slice_nil. split; [constructor|]. left.
    split; [done|]. split; [done|].
    by rewrite Nat.sub_diag.
Qed.

Lemma keeper_search_eq fuel src dst m :
  keeper_search filter_out fuel src dst m =
  if src <? dst then
    match fuel with
    | 0 => None
    | S fuel' =>
        e ← slots m !! src;
        let m' := note src m in
        if negb (filter_out e) then
          '(dst', m'') ← discard_search filter_out src e dst m';
          keeper_search filter_out fuel' (S src) dst' m''
        else keeper_search filter_out fuel' (S src) dst m'
    end
  else Some (dst, m).
Proof. by destruct fuel. Qed.

Lemma keeper_search_done fuel src dst m :
  dst ≤ src → keeper_search filter_out fuel src dst m = Some (dst, m).
Proof.
  intros Hge. rewrite keeper_search_eq.
  by destruct (Nat.ltb_spec src dst); [lia|].
Qed.

(** The outer loop from [src] to [dst] returns, examines every slot of
    [[src, dst)] once, touches no slot outside that range, and leaves the
    retained entries of the range packed against [dst]. *)
Lemma keeper_search_spec fuel src dst m :
  src ≤ dst → dst ≤ length (slots m) → dst - src ≤ fuel →
  ∃ d m', keeper_search filter_out fuel src dst m = Some (d, m') ∧
    src ≤ d ≤ dst ∧
    length (slots m') = length (slots m) ∧
    take src (slots m') = take src (slots m) ∧
    drop dst (slots m') = drop dst (slots m) ∧
    slice d dst (slots m') ≡ₚ retained filter_out (slice src dst (slots m)) ∧
    examined m' ≡ₚ seq src (dst - src) ++ examined m.
Proof.
  revert src dst m.
  induction fuel as [|fuel IH]; intros src dst m Hsd Hlen Hfuel.
  { assert (src = dst) as -> by lia.
    rewrite keeper_search_done by done. eexists _, _. split; [done|].
    rewrite slice_nil, Nat.sub_diag. by repeat split. }
  destruct (decide (src < dst)) as [Hlt|Hge]; last first.
  { assert (src = dst) as -> by lia.
    rewrite keeper_search_done by done. eexists _, _. split; [done|].
    rewrite slice_nil, Nat.sub_diag. by repeat split. }
  rewrite keeper_search_eq.
  destruct (Nat.ltb_spec src dst) as [_|?]; [|lia].
  destruct (lookup_lt_is_Some_2 (slots m) src) as [e He]; [lia|].
  rewrite He. cbn. rewrite (slice_cons src dst _ e) by done.
  destruct (filter_out e) eqn:Hfe; cbn.
  - (* the entry at [src] is discarded *)
    destruct (IH (S src) dst (note src m)) as
      (d & m' & Hrun & Hd & Hl & Ht & Hdr & Hperm & Hex); [lia|done|lia|].
    cbn in *. exists d, m'. split; [done|]. split; [lia|]. split; [done|].
    split; [by apply (take_le_ext src (S src)); [lia|]|]. split; [done|].
    split.
    + by rewrite retained_drop.
    + rewrite Hex. by apply seq_cons_perm.
  - (* the entry at [src] is a keeper *)
    destruct (discard_search_spec src e dst (note src m)) as
      (d1 & m1 & Hrun1 & Hd1 & Hall & Hcase); [done|done|].
    rewrite Hrun1. cbn in *.
    destruct Hcase as [(-> & Hs & Hex)|(Hsd1 & (x & Hx & Hfx) & Hs & Hex)].
    + (* no discard above [src]: both loops end *)
      rewrite keeper_search_done by lia.
      exists src, m1. split; [done|]. rewrite Hs.
      split; [lia|]. split; [done|]. split; [done|]. split; [done|].
      split; [|by rewrite Hex; apply seq_cons_perm].
      rewrite (slice_cons src dst _ e) by done.
      by rewrite retained_keep, (retained_all _ Hall).
    + (* a discard at [d1] has been replaced by the keeper *)
      destruct (IH (S src) d1 m1) as
        (d & m' & Hrun & Hd & Hl & Ht & Hdr & Hperm & Hex');
        [lia|rewrite Hs, length_insert; lia|lia|].
      rewrite Hs in *. rewrite length_insert in Hl.
      rewrite take_insert_ge in Ht by lia.
      rewrite slice_insert_ge in Hperm by lia.
      exists d, m'. split; [done|]. split; [lia|]. split; [done|].
      split; [by apply (take_le_ext src (S src)); [lia|]|].
      split.
      { rewrite (drop_ge_ext dst d1 _ _ ltac:(lia) Hdr).
        by rewrite drop_insert_lt by lia. }
      split.
      * rewrite (slice_app d d1 dst) by lia.
        rewrite (slice_ext d1 dst _ _ Hdr).
        rewrite slice_insert_head by lia. rewrite Hperm.
        rewrite (slice_app (S src) d1 dst) by lia.
        rewrite (slice_cons d1 dst _ x) by (done || lia).
        rewrite retained_keep, retained_app, retained_drop by done.
        rewrite (retained_all _ Hall).
        by rewrite <- Permutation_middle.
      * rewrite Hex', Hex. apply seq_split_perm; lia.
Qed.

End Loops.

(** ** [apply_filter] on a queue *)

Lemma apply_filter_absent filter_out q :
  _buf q = None → apply_filter_scan filter_out q = Some (q, []).
Proof. intros Hq. unfold apply_filter_scan. by rewrite Hq. Qed.

(** What one call does to a queue that owns a buffer. *)
Lemma apply_filter_present filter_out q buf :
  queue_ok q → _buf q = Some buf →
  ∃ d buf' log,
    apply_filter_scan filter_out q =
      Some (mkSATBMarkQueue (Some buf') d (_capacity q) (_active q), log) ∧
    index q ≤ d ≤ capacity q ∧
    length buf' = length buf ∧
    take (index q) buf' = take (index q) buf ∧
    drop d buf' ≡ₚ retained filter_out (drop (index q) buf) ∧
    log ≡ₚ seq (index q) (capacity q - index q).
Proof.
  intros [Hidx Hlen] Hbuf. rewrite Hbuf in Hlen.
  unfold apply_filter_scan. rewrite Hbuf.
  destruct (Nat.leb_spec (index q) (capacity q)) as [_|?]; [|lia].
  destruct (keeper_search_spec filter_out (capacity q - index q)
              (index q) (capacity q) (mkScan buf [])) as
    (d & m' & Hrun & Hd & Hl & Ht & _ & Hperm & Hex); [done|simpl; lia|done|].
  rewrite Hrun. simpl in *. exists d, (slots m'), (examined m').
  split; [done|]. split; [done|]. split; [done|]. split; [done|].
  split; [|by rewrite Hex, app_nil_r].
  rewrite <- Hlen in Hperm at 2. rewrite slice_to_end in Hperm.
  rewrite <- Hperm, <- Hlen, <- Hl. by rewrite slice_to_end.
Qed.

Lemma apply_filter_ok filter_out q :
  queue_ok q → ∃ q', apply_filter filter_out q = Some q' ∧ queue_ok q'.
Proof.
  intros Hok. unfold apply_filter. destruct (_buf q) as [buf|] eqn:Hbuf.
  - destruct (apply_filter_present filter_out q buf Hok Hbuf) as
      (d & buf' & log & -> & Hd & Hl & _). eexists. split; [done|].
    destruct Hok as [? Hlen]. rewrite Hbuf in Hlen.
    split; simpl; [unfold capacity in *; lia|]. by rewrite Hl.
  - rewrite apply_filter_absent by done. by exists q.
Qed.

(** The active range after a call, for a queue that owns a buffer. *)
Lemma apply_filter_active_range filter_out q buf :
  queue_ok q → _buf q = Some buf →
  ∃ q', apply_filter filter_out q = Some q' ∧
    capacity q' = capacity q ∧
    active_range q' ≡ₚ retained filter_out (active_range q) ∧
    index q' = capacity q - length (retained filter_out (active_range q)).
Proof.
  intros Hok Hbuf.
  destruct (apply_filter_present filter_out q buf Hok Hbuf) as
    (d & buf' & log & Hrun & Hd & Hl & _ & Hperm & _).
  unfold apply_filter. rewrite Hrun. eexists. split; [done|].
  unfold active_range. rewrite Hbuf. simpl. split; [done|]. split; [done|].
  unfold index at 1. simpl. rewrite <- Hperm, length_drop, Hl.
  destruct Hok as [_ Hlen]. rewrite Hbuf in Hlen. rewrite Hlen. lia.
Qed.

(** ** The claims of the specification *)

(** C1. For a queue that owns a buffer of capacity C, with
    [0 <= index <= C], and any predicate, [apply_filter] returns; the
    entries of the new active range are, as a multiset, the entries of the
    original active range that the predicate does not filter out; and the
    new index is C minus their number. *)
Theorem apply_filter_retains filter_out q buf :
  queue_ok q → _buf q = Some buf →
  ∃ q', apply_filter filter_out q = Some q' ∧
    capacity q' = capacity q ∧
    active_range q' ≡ₚ retained filter_out (active_range q) ∧
    index q' = capacity q - length (retained filter_out (active_range q)).
Proof. apply apply_filter_active_range. Qed.

Lemma apply_filter_retains_witness :
  queue_ok full4 ∧ _buf full4 = Some [addr_D; addr_C; addr_B; addr_A] ∧
  ∃ q', apply_filter discards_B_D full4 = Some q' ∧
    capacity q' = capacity full4 ∧
    active_range q' ≡ₚ retained discards_B_D (active_range full4) ∧
    index q' = capacity full4 - length (retained discards_B_D (active_range full4)).
Proof.
  assert (Hok : queue_ok full4) by (split; [vm_compute; lia|reflexivity]).
  split; [exact Hok|]. split; [reflexivity|].
  apply (apply_filter_retains discards_B_D full4
           [addr_D; addr_C; addr_B; addr_A] Hok). reflexivity.
Defined.

(** Counterexample to C2 as the spec states it: after the four appends
    the slots of the active range do not read [A; B; C; D] from low to
    high. *)
Lemma scenario_slot_order_fails :
  ∃ q1 q2 q3 q4,
    append addr_A empty4 = Some q1 ∧ append addr_B q1 = Some q2 ∧
    append addr_C q2 = Some q3 ∧ append addr_D q3 = Some q4 ∧
    active_range q4 = [addr_D; addr_C; addr_B; addr_A] ∧
    active_range q4 ≠ [addr_A; addr_B; addr_C; addr_D].
Proof.
  eexists _, _, _, _.
  split; [reflexivity|]. split; [reflexivity|].
  split; [reflexivity|]. split; [reflexivity|].
  split; [reflexivity|]. vm_compute. discriminate.
Qed.

(** C2, amended. In a queue of capacity 4, appending [A], [B], [C], [D]
    takes the index through 3, 2, 1, 0 and leaves the active range
    [[0, 4)] equal to [D; C; B; A] from low slot to high: the buffer fills
    from the top down. [apply_filter] with a predicate that discards [B]
    and [D] and retains [A] and [C] then yields index 2 and the active
    range [[2, 4)] holding exactly [A] and [C]. *)
Theorem scenario_top_down filter_out A B C D s0 s1 s2 s3 :
  filter_out A = false → filter_out B = true →
  filter_out C = false → filter_out D = true →
  ∃ q1 q2 q3 q4 q5,
    append A (mkSATBMarkQueue (Some [s0; s1; s2; s3]) 4 4 true) = Some q1 ∧
    index q1 = 3 ∧
    append B q1 = Some q2 ∧ index q2 = 2 ∧
    append C q2 = Some q3 ∧ index q3 = 1 ∧
    append D q3 = Some q4 ∧ index q4 = 0 ∧
    active_range q4 = [D; C; B; A] ∧
    apply_filter filter_out q4 = Some q5 ∧
    index q5 = 2 ∧
    active_range q5 = [C; A] ∧
    active_range q5 ≡ₚ [A; C].
Proof.
  intros HA HB HC HD.
  eexists _, _, _, _, _.
  split; [reflexivity|]. split; [reflexivity|].
  split; [reflexivity|]. split; [reflexivity|].
  split; [reflexivity|]. split; [reflexivity|].
  split; [reflexivity|]. split; [reflexivity|].
  split; [reflexivity|]. split.
  { unfold apply_filter, apply_filter_scan. cbn.
    rewrite HD. cbn. rewrite HC. cbn. rewrite HA. cbn. rewrite HB. cbn.
    reflexivity. }
  split; [reflexivity|]. split; [reflexivity|]. apply Permutation_swap.
Qed.

Lemma scenario_top_down_witness :
  ∃ q1 q2 q3 q4 q5,
    append addr_A empty4 = Some q1 ∧ index q1 = 3 ∧
    append addr_B q1 = Some q2 ∧ index q2 = 2 ∧
    append addr_C q2 = Some q3 ∧ index q3 = 1 ∧
    append addr_D q3 = Some q4 ∧ index q4 = 0 ∧
    active_range q4 = [addr_D; addr_C; addr_B; addr_A] ∧
    apply_filter discards_B_D q4 = Some q5 ∧
    index q5 = 2 ∧
    active_range q5 = [addr_C; addr_A] ∧
    active_range q5 ≡ₚ [addr_A; addr_C].
Proof.
  apply (scenario_top_down discards_B_D addr_A addr_B addr_C addr_D 0 0 0 0);
    reflexivity.
Defined.

(** C3. After one [apply_filter] no entry of the active range satisfies
    the predicate, and a second [apply_filter] with the same predicate
    leaves the index and the multiset of active entries as they are. *)
Theorem apply_filter_idempotent filter_out q :
  queue_ok q →
  ∃ q1 q2, apply_filter filter_out q = Some q1 ∧
    Forall (λ e, filter_out e = false) (active_range q1) ∧
    apply_filter filter_out q1 = Some q2 ∧
    index q2 = index q1 ∧
    active_range q2 ≡ₚ active_range q1.
Proof.
  intros Hok. destruct (_buf q) as [buf|] eqn:Hbuf.
  - destruct (apply_filter_active_range filter_out q buf Hok Hbuf) as
      (q1 & Hrun1 & Hcap1 & Hperm1 & Hidx1).
    assert (Hall : Forall (λ e, filter_out e = false) (active_range q1)).
    { rewrite Hperm1. apply retained_Forall. }
    destruct (apply_filter_ok filter_out q Hok) as (q1' & Hrun1' & Hok1).
    assert (q1' = q1) as -> by congruence.
    assert (∃ buf1, _buf q1 = Some buf1) as [buf1 Hbuf1].
    { unfold apply_filter in Hrun1.
      destruct (apply_filter_present filter_out q buf Hok Hbuf) as
        (d & buf' & log & Hrun & _).
      rewrite Hrun in Hrun1. injection Hrun1 as <-. by eexists. }
    destruct (apply_filter_active_range filter_out q1 buf1 Hok1 Hbuf1) as
      (q2 & Hrun2 & Hcap2 & Hperm2 & Hidx2).
    rewrite (retained_all _ _ Hall) in Hperm2, Hidx2.
    exists q1, q2. split; [done|]. split; [done|]. split; [done|].
    split; [|done]. rewrite Hidx2.
    unfold active_range. rewrite Hbuf1, length_drop.
    destruct Hok1 as [? Hlen1]. rewrite Hbuf1 in Hlen1. lia.
  - unfold apply_filter. rewrite apply_filter_absent by done. simpl.
    exists q, q. rewrite apply_filter_absent by done.
    unfold active_range. rewrite Hbuf. by repeat split.
Qed.

Lemma apply_filter_idempotent_witness :
  queue_ok full4 ∧
  ∃ q1 q2, apply_filter discards_B_D full4 = Some q1 ∧
    Forall (λ e, discards_B_D e = false) (active_range q1) ∧
    apply_filter discards_B_D q1 = Some q2 ∧
    index q2 = index q1 ∧
    active_range q2 ≡ₚ active_range q1.
Proof.
  assert (Hok : queue_ok full4) by (split; [vm_compute; lia|reflexivity]).
  split; [exact Hok|]. apply (apply_filter_idempotent discards_B_D full4 Hok).
Defined.


(** C5. [apply_filter] returns for every queue and every predicate. It
    hands each slot to the predicate at most once, and only slots of the
    active range [[index, C)]; the buffer it leaves is the queue's buffer
    with the same number of slots, and the capacity is unchanged. *)
Theorem apply_filter_single_pass filter_out q :
  queue_ok q →
  ∃ q' log, apply_filter_scan filter_out q = Some (q', log) ∧
    NoDup log ∧
    (∀ i, i ∈ log → index q ≤ i < capacity q) ∧
    length log ≤ capacity q - index q ∧
    capacity q' = capacity q ∧
    length <$> _buf q' = length <$> _buf q.
Proof.
  intros Hok. destruct (_buf q) as [buf|] eqn:Hbuf.
  - destruct (apply_filter_present filter_out q buf Hok Hbuf) as
      (d & buf' & log & Hrun & Hd & Hl & _ & _ & Hlog).
    eexists _, log. split; [done|]. split; [|split; [|split]].
    + rewrite Hlog. apply NoDup_seq.
    + intros i. rewrite Hlog, elem_of_seq. lia.
    + by rewrite Hlog, length_seq.
    + simpl. by rewrite Hl.
  - rewrite apply_filter_absent by done. exists q, [].
    split; [done|]. split; [constructor|]. split; [by intros ? ?%elem_of_nil|].
    simpl. split; [lia|]. by rewrite Hbuf.
Qed.

Lemma apply_filter_single_pass_witness :
  queue_ok tail4 ∧
  ∃ q' log, apply_filter_scan discards_B_D tail4 = Some (q', log) ∧
    NoDup log ∧
    (∀ i, i ∈ log → index tail4 ≤ i < capacity tail4) ∧
    length log ≤ capacity tail4 - index tail4 ∧
    capacity q' = capacity tail4 ∧
    length <$> _buf q' = length <$> _buf tail4.
Proof.
  assert (Hok : queue_ok tail4) by (split; [vm_compute; lia|reflexivity]).
  split; [exact Hok|]. apply (apply_filter_single_pass discards_B_D tail4 Hok).
Defined.

(** C6. [flush] of a queue of a set whose policy filters by a predicate
    returns and leaves the queue without a buffer and with [index == C].
    When the queue was empty, with [index == C], or one without a buffer,
    the completed set is as before. When the filtered active range is not
    empty, the completed set has gained one buffer, at its end, whose
    active range is the filtered active range. *)
Theorem flush_completed filter_out q qset :
  queue_ok q → _filter qset = predicate_filter filter_out →
  ∃ q1 q' qset',
    apply_filter filter_out q = Some q1 ∧
    flush q qset = Some (q', qset') ∧
    _buf q' = None ∧ index q' = capacity q ∧
    (index q = capacity q ∨ _buf q = None →
       _completed_buffers qset' = _completed_buffers qset) ∧
    (active_range q1 = [] →
       _completed_buffers qset' = _completed_buffers qset) ∧
    (active_range q1 ≠ [] →
       ∃ nd, _completed_buffers qset' = _completed_buffers qset ++ [nd] ∧
         node_active_range nd = active_range q1).
Proof.
  intros Hok Hpol.
  unfold flush, SATBMarkQueue_filter, SATBMarkQueueSet_filter.
  rewrite Hpol. simpl.
  destruct (_buf q) as [buf|] eqn:Hbuf.
  - destruct (apply_filter_present filter_out q buf Hok Hbuf) as
      (d & buf' & log & Hrun & Hd & Hl & _).
    unfold apply_filter. rewrite Hrun. simpl.
    eexists _, _, _. split; [done|]. split; [done|].
    split; [done|]. split; [done|].
    destruct Hok as [_ Hlen]. rewrite Hbuf in Hlen.
    unfold active_range, index, capacity in *. simpl.
    destruct (Nat.ltb_spec d (_capacity q)) as [Hlt|Hge]; simpl.
    + split; [intros [?|[=]]; lia|]. split.
      * intros Hnil%(f_equal length). rewrite length_drop in Hnil.
        simpl in Hnil. lia.
      * intros _. by eexists.
    + split; [done|]. split; [done|]. intros Hne. destruct Hne.
      apply drop_ge. lia.
  - unfold apply_filter. rewrite apply_filter_absent by done. simpl.
    rewrite Hbuf. eexists _, _, _. split; [done|]. split; [done|].
    split; [done|]. split; [done|]. split; [done|]. split; [done|].
    unfold active_range. by rewrite Hbuf.
Qed.

Lemma flush_completed_witness :
  queue_ok full4 ∧ _filter qset0 = predicate_filter discards_B_D ∧
  ∃ q1 q' qset',
    apply_filter discards_B_D full4 = Some q1 ∧
    flush full4 qset0 = Some (q', qset') ∧
    _buf q' = None ∧ index q' = capacity full4 ∧
    (index full4 = capacity full4 ∨ _buf full4 = None →
       _completed_buffers qset' = _completed_buffers qset0) ∧
    (active_range q1 = [] →
       _completed_buffers qset' = _completed_buffers qset0) ∧
    (active_range q1 ≠ [] →
       ∃ nd, _completed_buffers qset' = _completed_buffers qset0 ++ [nd] ∧
         node_active_range nd = active_range q1).
Proof.
  assert (Hok : queue_ok full4) by (split; [vm_compute; lia|reflexivity]).
  split; [exact Hok|]. split; [reflexivity|].
  apply (flush_completed discards_B_D full4 qset0 Hok). reflexivity.
Defined.

(** C7. [apply_closure_to_completed_buffer] on an empty completed set
    returns false, the closure is not applied and the set is as it was; on
    a completed set with a first buffer it returns true, the closure has
    been applied once, to the active range of that buffer, the buffer has
    left the completed set and is on the free list. *)
Theorem apply_closure_to_completed_buffer_result
    {St : Type} (cl : SATBBufferClosure St) (st : St) calls qset :
  match _completed_buffers qset with
  | [] =>
      apply_closure_to_completed_buffer cl st qset = (false, st, qset) ∧
      (apply_closure_to_completed_buffer recorder calls qset).1.2 = calls
  | nd :: rest =>
      ∃ qset',
        apply_closure_to_completed_buffer cl st qset =
          (true, do_buffer cl (node_active_range nd) st, qset') ∧
        (apply_closure_to_completed_buffer recorder calls qset).1.2 =
          calls ++ [node_active_range nd] ∧
        _completed_buffers qset' = rest ∧
        _buf_free_list qset' = node_buffer nd :: _buf_free_list qset
  end.
Proof.
  unfold apply_closure_to_completed_buffer.
  destruct (_completed_buffers qset) as [|nd rest]; [done|].
  by eexists.
Qed.

(** C8. After [abandon_partial_marking] every thread's queue and the
    shared queue are without a buffer and have [index == C], the completed
    set is empty, and [apply_closure_to_completed_buffer] returns false and
    does not apply the closure. *)
Theorem abandon_partial_marking_resets
    {St : Type} (cl : SATBBufferClosure St) (st : St) vm :
  let vm' := abandon_partial_marking vm in
  let qset' := _satb_mark_queue_set vm' in
  length (_thread_queues vm') = length (_thread_queues vm) ∧
  Forall (λ q, _buf q = None ∧ index q = capacity q) (_thread_queues vm') ∧
  _buf (_shared_satb_queue qset') = None ∧
  index (_shared_satb_queue qset') = capacity (_shared_satb_queue qset') ∧
  _completed_buffers qset' = [] ∧
  apply_closure_to_completed_buffer cl st qset' = (false, st, qset').
Proof.
  simpl. split; [by rewrite length_fmap|]. split; [|done].
  apply Forall_fmap, Forall_true. done.
Qed.

(** C9. On a queue without a buffer [apply_filter] returns at once and
    the queue is as it was: index, buffer and active flag keep their
    values, and the predicate is not consulted. *)
Theorem apply_filter_no_buffer filter_out q :
  _buf q = None → apply_filter_scan filter_out q = Some (q, []).
Proof. apply apply_filter_absent. Qed.

Lemma apply_filter_no_buffer_witness :
  _buf idle4 = None ∧ apply_filter_scan discards_B_D idle4 = Some (idle4, []).
Proof.
  split; [reflexivity|]. apply (apply_filter_no_buffer discards_B_D idle4).
  reflexivity.
Defined.

(** C10. [apply_filter] stores only into the active range it started
    from: with starting index [i], every slot below [i] holds the value it
    held before, the buffer keeps its size, and the resulting index lies
    between [i] and C. *)
Theorem apply_filter_frame filter_out q buf :
  queue_ok q → _buf q = Some buf →
  ∃ q' buf', apply_filter filter_out q = Some q' ∧
    _buf q' = Some buf' ∧
    length buf' = length buf ∧
    (∀ j, j < index q → buf' !! j = buf !! j) ∧
    index q ≤ index q' ≤ capacity q.
Proof.
  intros Hok Hbuf.
  destruct (apply_filter_present filter_out q buf Hok Hbuf) as
    (d & buf' & log & Hrun & Hd & Hl & Ht & _).
  unfold apply_filter. rewrite Hrun. eexists _, buf'.
  split; [done|]. split; [done|]. split; [done|]. split; [|done].
  intros j Hj.
  rewrite <- (lookup_take_lt buf' (index q) j Hj).
  rewrite <- (lookup_take_lt buf (index q) j Hj). by rewrite Ht.
Qed.

Lemma apply_filter_frame_witness :
  queue_ok tail4 ∧ _buf tail4 = Some [addr_B; addr_D; addr_B; addr_A] ∧
  ∃ q' buf', apply_filter discards_B_D tail4 = Some q' ∧
    _buf q' = Some buf' ∧
    length buf' = length [addr_B; addr_D; addr_B; addr_A] ∧
    (∀ j, j < index tail4 →
       buf' !! j = [addr_B; addr_D; addr_B; addr_A] !! j) ∧
    index tail4 ≤ index q' ≤ capacity tail4.
Proof.
  assert (Hok : queue_ok tail4) by (split; [vm_compute; lia|reflexivity]).
  split; [exact Hok|]. split; [reflexivity|].
  apply (apply_filter_frame discards_B_D tail4
           [addr_B; addr_D; addr_B; addr_A] Hok). reflexivity.
Defined.

(** ** Where [apply_filter] stores *)

Section Stores.
Variable filter_out : entry → bool.

(** The stores of the outer loop land at or above the [dst] it returns,
    and never on an entry to retain. *)
Lemma keeper_search_stores fuel src dst m d m' :
  dst ≤ length (slots m) →
  keeper_search filter_out fuel src dst m = Some (d, m') →
  d ≤ dst ∧
  take d (slots m') = take d (slots m) ∧
  ∀ j x, slots m !! j = Some x → filter_out x = false →
    slots m' !! j = Some x.
Proof.
  revert src dst m.
  induction fuel as [|fuel IH]; intros src dst m Hlen Hrun;
    rewrite keeper_search_eq in Hrun;
    destruct (Nat.ltb_spec src dst) as [Hlt|Hge];
    try discriminate Hrun;
    try (injection Hrun as <- <-; by repeat split).
  destruct (lookup_lt_is_Some_2 (slots m) src) as [e He]; [lia|].
  rewrite He in Hrun. cbn in Hrun.
  destruct (filter_out e) eqn:Hfe; cbn in Hrun.
  - by apply IH in Hrun.
  - destruct (discard_search_spec filter_out src e dst (note src m)) as
      (d1 & m1 & Hrun1 & Hd1 & _ & Hcase); [done|done|].
    rewrite Hrun1 in Hrun. cbn in *.
    destruct Hcase as [(-> & Hs & _)|(Hsd1 & (x & Hx & Hfx) & Hs & _)].
    + rewrite keeper_search_done in Hrun by lia.
      injection Hrun as <- <-. rewrite Hs. split; [lia|done].
    + apply IH in Hrun as (Hd & Ht & Hkeep);
        [|rewrite Hs, length_insert; lia].
      rewrite Hs in *. split; [lia|]. split.
      * by rewrite Ht, take_insert_ge.
      * intros j y Hy Hfy. apply Hkeep; [|done].
        rewrite list_lookup_insert_ne; [done|]. intros <-. congruence.
Qed.

End Stores.

(** The slots below the index a call returns, and the slots that hold an
    entry to retain, are as the call found them. *)
Lemma apply_filter_stores filter_out q buf :
  queue_ok q → _buf q = Some buf →
  ∃ d buf',
    apply_filter filter_out q =
      Some (mkSATBMarkQueue (Some buf') d (_capacity q) (_active q)) ∧
    index q ≤ d ≤ capacity q ∧
    length buf' = length buf ∧
    take d buf' = take d buf ∧
    ∀ j x, buf !! j = Some x → filter_out x = false → buf' !! j = Some x.
Proof.
  intros [Hidx Hlen] Hbuf. rewrite Hbuf in Hlen.
  unfold apply_filter, apply_filter_scan. rewrite Hbuf.
  destruct (Nat.leb_spec (index q) (capacity q)) as [_|?]; [|lia].
  destruct (keeper_search_spec filter_out (capacity q - index q)
              (index q) (capacity q) (mkScan buf [])) as
    (d & m' & Hrun & Hd & Hl & _); [done|simpl; lia|done|].
  rewrite Hrun. simpl in *.
  apply keeper_search_stores in Hrun as (_ & Ht & Hkeep); [|simpl; lia].
  by eexists _, _.
Qed.

(** A call on a queue that owns a buffer leaves a queue that owns one. *)
Lemma apply_filter_present_ok filter_out q buf :
  queue_ok q → _buf q = Some buf →
  ∃ q' buf', apply_filter filter_out q = Some q' ∧
    queue_ok q' ∧ _buf q' = Some buf' ∧ capacity q' = capacity q.
Proof.
  intros Hok Hbuf.
  destruct (apply_filter_stores filter_out q buf Hok Hbuf) as
    (d & buf' & Hrun & Hd & Hl & _).
  destruct (apply_filter_ok filter_out q Hok) as (q' & Hrun' & Hok').
  rewrite Hrun in Hrun'. injection Hrun' as <-. by eexists _, _.
Qed.

(** ** The entries the predicate is applied to *)

Lemma slice_elem_of_tail a b l x : x ∈ slice (S a) b l → x ∈ slice a b l.
Proof.
  intros Hx. destruct (decide (a < b)) as [Hab|Hab].
  - destruct (l !! a) as [y|] eqn:Hy.
    + rewrite (slice_cons a b l y) by done. by apply list_elem_of_further.
    + unfold slice in Hx. rewrite drop_ge in Hx.
      * rewrite take_nil in Hx. by apply elem_of_nil in Hx.
      * apply lookup_ge_None in Hy. lia.
  - unfold slice in Hx. replace (b - S a) with 0 in Hx by lia.
    by apply elem_of_nil in Hx.
Qed.

Lemma slice_elem_of_init a b c l x :
  a ≤ b → b ≤ c → x ∈ slice a b l → x ∈ slice a c l.
Proof.
  intros Hab Hbc Hx. rewrite (slice_app a b c) by done.
  apply elem_of_app. by left.
Qed.

(** Two predicates that agree on the entries above [src] and below [dst]
    drive the inner loop alike. *)
Lemma discard_search_ext f g src e dst m :
  (∀ x, x ∈ slice (S src) dst (slots m) → f x = g x) →
  discard_search f src e dst m = discard_search g src e dst m.
Proof.
  revert m. induction dst as [|dst IH]; intros m Hfg; [done|].
  simpl. destruct (Nat.ltb_spec src dst) as [Hlt|Hge]; [|done].
  destruct (slots m !! dst) as [x|] eqn:Hx; [|done]. simpl.
  rewrite (Hfg x).
  - destruct (g x); [done|]. apply IH. intros y Hy. apply Hfg.
    by apply (slice_elem_of_init (S src) dst (S dst)); [lia|lia|].
  - rewrite (slice_snoc (S src) dst _ x) by (done || lia).
    apply elem_of_app. right. by apply list_elem_of_singleton.
Qed.

(** Two predicates that agree on the entries of [[src, dst)] drive the
    outer loop alike. *)
Lemma keeper_search_ext f g fuel src dst m :
  dst ≤ length (slots m) →
  (∀ x, x ∈ slice src dst (slots m) → f x = g x) →
  keeper_search f fuel src dst m = keeper_search g fuel src dst m.
Proof.
  revert src dst m.
  induction fuel as [|fuel IH]; intros src dst m Hlen Hfg;
    rewrite !keeper_search_eq; [done|].
  destruct (Nat.ltb_spec src dst) as [Hlt|Hge]; [|done].
  destruct (lookup_lt_is_Some_2 (slots m) src) as [e He]; [lia|].
  rewrite He. cbn.
  rewrite (Hfg e)
    by (rewrite (slice_cons src dst _ e) by done; apply list_elem_of_here).
  destruct (g e) eqn:Hge; cbn.
  - apply IH; [done|]. intros x Hx. apply Hfg. by apply slice_elem_of_tail.
  - rewrite (discard_search_ext f g src e dst (note src m))
      by (intros x Hx; apply Hfg; by apply slice_elem_of_tail).
    destruct (discard_search_spec g src e dst (note src m)) as
      (d1 & m1 & Hrun1 & Hd1 & _ & Hcase); [done|done|].
    rewrite Hrun1. cbn in *.
    destruct Hcase as [(-> & Hs & _)|(Hsd1 & _ & Hs & _)].
    + by rewrite !keeper_search_done by lia.
    + apply IH; [rewrite Hs, length_insert; lia|].
      intros x Hx. rewrite Hs, slice_insert_ge in Hx by lia.
      apply Hfg, slice_elem_of_tail.
      by apply (slice_elem_of_init (S src) d1 dst); [lia|lia|].
Qed.

(** ** Counting the retained entries *)

Lemma retained_length_all filter_out l :
  length (retained filter_out l) = length l →
  Forall (λ e, filter_out e = false) l.
Proof.
  induction l as [|x l IH]; intros Hl; [constructor|].
  destruct (filter_out x) eqn:Hx.
  - rewrite retained_drop in Hl by done.
    pose proof (length_filter (λ e, filter_out e = false) l) as Hle.
    unfold retained in Hl. simpl in Hl. lia.
  - rewrite retained_keep in Hl by done. simpl in Hl.
    constructor; [done|]. apply IH. lia.
Qed.

Lemma retained_nil_iff filter_out l :
  retained filter_out l = [] ↔ Forall (λ e, filter_out e = true) l.
Proof.
  induction l as [|x l IH]; [by split|].
  destruct (filter_out x) eqn:Hx.
  - rewrite retained_drop, IH by done. split.
    + by constructor.
    + by intros [_ ?]%Forall_cons.
  - rewrite retained_keep by done. split; [done|].
    intros [? _]%Forall_cons. congruence.
Qed.

Lemma retained_retained f g l :
  retained g (retained f l) = retained (λ e, f e || g e) l.
Proof.
  induction l as [|x l IH]; [done|].
  destruct (f x) eqn:Hf.
  - rewrite (retained_drop f), (retained_drop (λ e, f e || g e));
      [done|by rewrite Hf|done].
  - rewrite (retained_keep f) by done. destruct (g x) eqn:Hg.
    + rewrite (retained_drop g), (retained_drop (λ e, f e || g e));
        [done|by rewrite Hf, Hg|done].
    + rewrite (retained_keep g), (retained_keep (λ e, f e || g e));
        [by rewrite IH|by rewrite Hf, Hg|done].
Qed.

Lemma retained_perm filter_out l k :
  l ≡ₚ k → retained filter_out l ≡ₚ retained filter_out k.
Proof. intros Hlk. unfold retained. by rewrite Hlk. Qed.

(** ** What a call leaves of the buffer *)

(** When no entry of the active range is to be removed, a call returns the
    queue as it found it. *)
Lemma apply_filter_fixed filter_out q :
  queue_ok q → Forall (λ e, filter_out e = false) (active_range q) →
  apply_filter filter_out q = Some q.
Proof.
  intros Hok Hall. destruct (_buf q) as [buf|] eqn:Hbuf.
  - destruct (apply_filter_stores filter_out q buf Hok Hbuf) as
      (d & buf' & Hrun & Hd & Hl & Ht & Hkeep).
    destruct (apply_filter_active_range filter_out q buf Hok Hbuf) as
      (q' & Hrun' & _ & _ & Hindex).
    rewrite Hrun in Hrun'. injection Hrun' as <-.
    rewrite (retained_all _ _ Hall) in Hindex.
    unfold active_range in Hall, Hindex. rewrite Hbuf in Hall, Hindex.
    rewrite length_drop in Hindex. unfold index at 1 in Hindex.
    simpl in Hindex. destruct Hok as [Hidx Hlen]. rewrite Hbuf in Hlen.
    assert (d = index q) as -> by lia.
    assert (buf' = buf) as ->.
    { apply list_eq. intros j. destruct (decide (j < index q)) as [Hj|Hj].
      - rewrite <- (lookup_take_lt buf' (index q) j Hj).
        rewrite <- (lookup_take_lt buf (index q) j Hj). by rewrite Ht.
      - destruct (buf !! j) as [x|] eqn:Hx.
        + apply Hkeep; [done|].
          apply (Forall_lookup_1 _ _ (j - index q) x Hall).
          rewrite lookup_drop. by replace (index q + (j - index q)) with j by lia.
        + apply lookup_ge_None. apply lookup_ge_None in Hx. lia. }
    rewrite Hrun, <- Hbuf. by destruct q.
  - unfold apply_filter. by rewrite apply_filter_absent.
Qed.

(** One filter after another, as one filter. *)
Lemma apply_filter_then f g q buf :
  queue_ok q → _buf q = Some buf →
  ∃ q1 q2, apply_filter f q = Some q1 ∧ apply_filter g q1 = Some q2 ∧
    active_range q2 ≡ₚ retained (λ e, f e || g e) (active_range q) ∧
    index q2 =
      capacity q - length (retained (λ e, f e || g e) (active_range q)).
Proof.
  intros Hok Hbuf.
  destruct (apply_filter_present_ok f q buf Hok Hbuf) as
    (q1 & buf1 & Hrun1 & Hok1 & Hbuf1 & Hcap1).
  destruct (apply_filter_active_range f q buf Hok Hbuf) as
    (q1' & Hrun1' & _ & Hperm1 & _).
  rewrite Hrun1 in Hrun1'. injection Hrun1' as <-.
  destruct (apply_filter_active_range g q1 buf1 Hok1 Hbuf1) as
    (q2 & Hrun2 & _ & Hperm2 & Hidx2).
  exists q1, q2. split; [done|]. split; [done|].
  assert (Hperm : retained g (active_range q1)
                  ≡ₚ retained (λ e, f e || g e) (active_range q)).
  { rewrite <- retained_retained. by apply retained_perm. }
  split; [by rewrite Hperm2|]. by rewrite Hidx2, Hcap1, Hperm.
Qed.

(** ** Further properties of [apply_filter] *)

(** X1. A call on a queue that owns a buffer hands every slot of the
    active range [[index, C)] to the predicate exactly once: the predicate
    is evaluated [C - index] times whatever it answers. *)
Theorem apply_filter_examines_each_slot_once filter_out q buf :
  queue_ok q → _buf q = Some buf →
  ∃ q' log, apply_filter_scan filter_out q = Some (q', log) ∧
    log ≡ₚ seq (index q) (capacity q - index q) ∧
    length log = capacity q - index q.
Proof.
  intros Hok Hbuf.
  destruct (apply_filter_present filter_out q buf Hok Hbuf) as
    (d & buf' & log & Hrun & _ & _ & _ & _ & Hlog).
  eexists _, log. split; [done|]. split; [done|].
  by rewrite Hlog, length_seq.
Qed.

Lemma apply_filter_examines_each_slot_once_witness :
  queue_ok tail4 ∧ _buf tail4 = Some [addr_B; addr_D; addr_B; addr_A] ∧
  ∃ q' log, apply_filter_scan discards_B_D tail4 = Some (q', log) ∧
    log ≡ₚ seq (index tail4) (capacity tail4 - index tail4) ∧
    length log = capacity tail4 - index tail4.
Proof.
  assert (Hok : queue_ok tail4) by (split; [vm_compute; lia|reflexivity]).
  split; [exact Hok|]. split; [reflexivity|].
  apply (apply_filter_examines_each_slot_once discards_B_D tail4
           [addr_B; addr_D; addr_B; addr_A] Hok). reflexivity.
Defined.

(** X2. Every store of a call lands in the active range the call leaves:
    the slots below the new index, stale slots and the slots the survivors
    were moved out of, hold what they held before. *)
Theorem apply_filter_stores_above_new_index filter_out q buf :
  queue_ok q → _buf q = Some buf →
  ∃ q' buf', apply_filter filter_out q = Some q' ∧
    _buf q' = Some buf' ∧
    ∀ j, j < index q' → buf' !! j = buf !! j.
Proof.
  intros Hok Hbuf.
  destruct (apply_filter_stores filter_out q buf Hok Hbuf) as
    (d & buf' & Hrun & _ & _ & Ht & _).
  eexists _, buf'. split; [done|]. split; [done|]. intros j Hj.
  unfold index in Hj. simpl in Hj.
  rewrite <- (lookup_take_lt buf' d j Hj).
  rewrite <- (lookup_take_lt buf d j Hj). by rewrite Ht.
Qed.

Lemma apply_filter_stores_above_new_index_witness :
  queue_ok full4 ∧ _buf full4 = Some [addr_D; addr_C; addr_B; addr_A] ∧
  ∃ q' buf', apply_filter discards_B_D full4 = Some q' ∧
    _buf q' = Some buf' ∧
    ∀ j, j < index q' → buf' !! j = [addr_D; addr_C; addr_B; addr_A] !! j.
Proof.
  assert (Hok : queue_ok full4) by (split; [vm_compute; lia|reflexivity]).
  split; [exact Hok|]. split; [reflexivity|].
  apply (apply_filter_stores_above_new_index discards_B_D full4
           [addr_D; addr_C; addr_B; addr_A] Hok). reflexivity.
Defined.

(** X3. A call never overwrites an entry that the predicate retains: a
    slot, anywhere in the buffer, that held such an entry holds it
    afterwards. Only slots holding an entry to remove are stored into. *)
Theorem apply_filter_never_overwrites_retained filter_out q buf :
  queue_ok q → _buf q = Some buf →
  ∃ q' buf', apply_filter filter_out q = Some q' ∧
    _buf q' = Some buf' ∧
    ∀ j x, buf !! j = Some x → filter_out x = false → buf' !! j = Some x.
Proof.
  intros Hok Hbuf.
  destruct (apply_filter_stores filter_out q buf Hok Hbuf) as
    (d & buf' & Hrun & _ & _ & _ & Hkeep).
  by eexists _, buf'.
Qed.

Lemma apply_filter_never_overwrites_retained_witness :
  queue_ok full4 ∧ _buf full4 = Some [addr_D; addr_C; addr_B; addr_A] ∧
  ∃ q' buf', apply_filter discards_B_D full4 = Some q' ∧
    _buf q' = Some buf' ∧
    ∀ j x, [addr_D; addr_C; addr_B; addr_A] !! j = Some x →
      discards_B_D x = false → buf' !! j = Some x.
Proof.
  assert (Hok : queue_ok full4) by (split; [vm_compute; lia|reflexivity]).
  split; [exact Hok|]. split; [reflexivity|].
  apply (apply_filter_never_overwrites_retained discards_B_D full4
           [addr_D; addr_C; addr_B; addr_A] Hok). reflexivity.
Defined.

(** X4. When the predicate retains every entry of the active range, a call
    makes no store and returns the queue exactly as it found it: buffer,
    index and active flag. *)
Theorem apply_filter_nothing_to_discard filter_out q :
  queue_ok q → Forall (λ e, filter_out e = false) (active_range q) →
  apply_filter filter_out q = Some q.
Proof. apply apply_filter_fixed. Qed.

Lemma apply_filter_nothing_to_discard_witness :
  queue_ok kept4 ∧ Forall (λ e, discards_B_D e = false) (active_range kept4) ∧
  apply_filter discards_B_D kept4 = Some kept4.
Proof.
  assert (Hok : queue_ok kept4) by (split; [vm_compute; lia|reflexivity]).
  assert (Hall : Forall (λ e, discards_B_D e = false) (active_range kept4))
    by (repeat constructor).
  split; [exact Hok|]. split; [exact Hall|].
  apply (apply_filter_nothing_to_discard discards_B_D kept4 Hok Hall).
Defined.

(** X5. A second call with the same predicate returns the queue the first
    call left, slot for slot: the result of a call is a fixed point of
    [apply_filter]. *)
Theorem apply_filter_twice filter_out q :
  queue_ok q →
  ∃ q1, apply_filter filter_out q = Some q1 ∧
    apply_filter filter_out q1 = Some q1.
Proof.
  intros Hok.
  destruct (apply_filter_ok filter_out q Hok) as (q1 & Hrun & Hok1).
  exists q1. split; [done|]. apply apply_filter_fixed; [done|].
  destruct (_buf q) as [buf|] eqn:Hbuf.
  - destruct (apply_filter_active_range filter_out q buf Hok Hbuf) as
      (q1' & Hrun' & _ & Hperm & _).
    rewrite Hrun in Hrun'. injection Hrun' as <-.
    rewrite Hperm. apply retained_Forall.
  - unfold apply_filter in Hrun. rewrite apply_filter_absent in Hrun by done.
    injection Hrun as <-. unfold active_range. by rewrite Hbuf.
Qed.

Lemma apply_filter_twice_witness :
  queue_ok full4 ∧
  ∃ q1, apply_filter discards_B_D full4 = Some q1 ∧
    apply_filter discards_B_D q1 = Some q1.
Proof.
  assert (Hok : queue_ok full4) by (split; [vm_compute; lia|reflexivity]).
  split; [exact Hok|]. apply (apply_filter_twice discards_B_D full4 Hok).
Defined.

(** X6. A call leaves the buffer empty, [index == C], exactly when the
    predicate removes every entry of the active range; it then has made no
    store. *)
Theorem apply_filter_empties_iff filter_out q buf :
  queue_ok q → _buf q = Some buf →
  ∃ q', apply_filter filter_out q = Some q' ∧
    (index q' = capacity q ↔
     Forall (λ e, filter_out e = true) (active_range q)) ∧
    (index q' = capacity q → _buf q' = Some buf).
Proof.
  intros Hok Hbuf.
  destruct (apply_filter_stores filter_out q buf Hok Hbuf) as
    (d & buf' & Hrun & Hd & Hl & Ht & _).
  destruct (apply_filter_active_range filter_out q buf Hok Hbuf) as
    (q' & Hrun' & _ & _ & Hindex).
  rewrite Hrun in Hrun'. injection Hrun' as <-.
  eexists. split; [done|].
  destruct Hok as [Hidx Hlen]. rewrite Hbuf in Hlen.
  cbn [index capacity _index _capacity _buf] in *.
  pose proof (length_filter (λ e, filter_out e = false) (active_range q))
    as Hle.
  fold (retained filter_out (active_range q)) in Hle.
  assert (Hact : length (active_range q) = capacity q - index q).
  { unfold active_range. rewrite Hbuf, length_drop. lia. }
  split.
  - rewrite <- retained_nil_iff. split.
    + intros ->. apply length_zero_iff_nil. lia.
    + intros Hnil. rewrite Hnil in Hindex. simpl in Hindex. lia.
  - intros ->. f_equal.
    rewrite <- (take_ge buf' (capacity q)), <- (take_ge buf (capacity q))
      by lia. done.
Qed.

Lemma apply_filter_empties_iff_witness :
  queue_ok dead4 ∧ _buf dead4 = Some [addr_A; addr_B; addr_D; addr_B] ∧
  ∃ q', apply_filter discards_B_D dead4 = Some q' ∧
    (index q' = capacity dead4 ↔
     Forall (λ e, discards_B_D e = true) (active_range dead4)) ∧
    (index q' = capacity dead4 →
     _buf q' = Some [addr_A; addr_B; addr_D; addr_B]).
Proof.
  assert (Hok : queue_ok dead4) by (split; [vm_compute; lia|reflexivity]).
  split; [exact Hok|]. split; [reflexivity|].
  apply (apply_filter_empties_iff discards_B_D dead4
           [addr_A; addr_B; addr_D; addr_B] Hok). reflexivity.
Defined.

(** X7. A call leaves the index where it was exactly when the predicate
    retains every entry of the active range; otherwise the index grows. *)
Theorem apply_filter_index_fixed_iff filter_out q buf :
  queue_ok q → _buf q = Some buf →
  ∃ q', apply_filter filter_out q = Some q' ∧
    index q ≤ index q' ∧
    (index q' = index q ↔
     Forall (λ e, filter_out e = false) (active_range q)).
Proof.
  intros Hok Hbuf.
  destruct (apply_filter_stores filter_out q buf Hok Hbuf) as
    (d & buf' & Hrun & Hd & _).
  destruct (apply_filter_active_range filter_out q buf Hok Hbuf) as
    (q' & Hrun' & _ & _ & Hindex).
  rewrite Hrun in Hrun'. injection Hrun' as <-.
  eexists. split; [done|].
  destruct Hok as [Hidx Hlen]. rewrite Hbuf in Hlen.
  cbn [index capacity _index _capacity _buf] in *.
  split; [lia|].
  assert (Hact : length (active_range q) = capacity q - index q).
  { unfold active_range. rewrite Hbuf, length_drop. lia. }
  pose proof (length_filter (λ e, filter_out e = false) (active_range q))
    as Hle.
  fold (retained filter_out (active_range q)) in Hle.
  split.
  - intros ->. apply retained_length_all. lia.
  - intros Hall. rewrite (retained_all _ _ Hall) in Hindex. lia.
Qed.

Lemma apply_filter_index_fixed_iff_witness :
  queue_ok kept4 ∧ _buf kept4 = Some [addr_B; addr_D; addr_C; addr_A] ∧
  ∃ q', apply_filter discards_B_D kept4 = Some q' ∧
    index kept4 ≤ index q' ∧
    (index q' = index kept4 ↔
     Forall (λ e, discards_B_D e = false) (active_range kept4)).
Proof.
  assert (Hok : queue_ok kept4) by (split; [vm_compute; lia|reflexivity]).
  split; [exact Hok|]. split; [reflexivity|].
  apply (apply_filter_index_fixed_iff discards_B_D kept4
           [addr_B; addr_D; addr_C; addr_A] Hok). reflexivity.
Defined.

Lemma retained_ext f g l : (∀ x, f x = g x) → retained f l = retained g l.
Proof.
  intros Hfg. unfold retained. apply list_filter_iff. intros x.
  by rewrite Hfg.
Qed.

(** X8. Filtering by one predicate and then by another leaves, as a
    multiset, the entries of the original active range that neither
    predicate removes, and the index that a single call with the
    disjunction of the two would give. *)
Theorem apply_filter_compose f g q buf :
  queue_ok q → _buf q = Some buf →
  ∃ q1 q2, apply_filter f q = Some q1 ∧ apply_filter g q1 = Some q2 ∧
    active_range q2 ≡ₚ retained (λ e, f e || g e) (active_range q) ∧
    index q2 =
      capacity q - length (retained (λ e, f e || g e) (active_range q)).
Proof. apply apply_filter_then. Qed.

Lemma apply_filter_compose_witness :
  queue_ok full4 ∧ _buf full4 = Some [addr_D; addr_C; addr_B; addr_A] ∧
  ∃ q1 q2, apply_filter discards_A full4 = Some q1 ∧
    apply_filter discards_B_D q1 = Some q2 ∧
    active_range q2 ≡ₚ
      retained (λ e, discards_A e || discards_B_D e) (active_range full4) ∧
    index q2 =
      capacity full4 -
      length (retained (λ e, discards_A e || discards_B_D e)
                (active_range full4)).
Proof.
  assert (Hok : queue_ok full4) by (split; [vm_compute; lia|reflexivity]).
  split; [exact Hok|]. split; [reflexivity|].
  apply (apply_filter_compose discards_A discards_B_D full4
           [addr_D; addr_C; addr_B; addr_A] Hok). reflexivity.
Defined.

(** X9. The order of two filters does not matter for what survives: either
    order gives the same index and the same multiset of active entries. *)
Theorem apply_filter_commutes f g q buf :
  queue_ok q → _buf q = Some buf →
  ∃ qf qfg qg qgf,
    apply_filter f q = Some qf ∧ apply_filter g qf = Some qfg ∧
    apply_filter g q = Some qg ∧ apply_filter f qg = Some qgf ∧
    index qfg = index qgf ∧
    active_range qfg ≡ₚ active_range qgf.
Proof.
  intros Hok Hbuf.
  destruct (apply_filter_then f g q buf Hok Hbuf) as
    (qf & qfg & Hf & Hfg & Hperm1 & Hidx1).
  destruct (apply_filter_then g f q buf Hok Hbuf) as
    (qg & qgf & Hg & Hgf & Hperm2 & Hidx2).
  exists qf, qfg, qg, qgf. repeat (split; [done|]).
  rewrite (retained_ext (λ e, g e || f e) (λ e, f e || g e))
    in Hperm2, Hidx2 by (intros x; apply orb_comm).
  split; [by rewrite Hidx1, Hidx2|by rewrite Hperm1, Hperm2].
Qed.

Lemma apply_filter_commutes_witness :
  queue_ok full4 ∧ _buf full4 = Some [addr_D; addr_C; addr_B; addr_A] ∧
  ∃ qf qfg qg qgf,
    apply_filter discards_A full4 = Some qf ∧
    apply_filter discards_B_D qf = Some qfg ∧
    apply_filter discards_B_D full4 = Some qg ∧
    apply_filter discards_A qg = Some qgf ∧
    index qfg = index qgf ∧
    active_range qfg ≡ₚ active_range qgf.
Proof.
  assert (Hok : queue_ok full4) by (split; [vm_compute; lia|reflexivity]).
  split; [exact Hok|]. split; [reflexivity|].
  apply (apply_filter_commutes discards_A discards_B_D full4
           [addr_D; addr_C; addr_B; addr_A] Hok). reflexivity.
Defined.

(** X10. A call depends on the predicate only through its answers on the
    entries of the active range: two predicates that agree there give the
    same queue and examine the same slots in the same order, whatever they
    answer on the stale entries below the index. *)
Theorem apply_filter_predicate_ext f g q :
  queue_ok q → (∀ x, x ∈ active_range q → f x = g x) →
  apply_filter_scan f q = apply_filter_scan g q.
Proof.
  intros [Hidx Hlen] Hfg. unfold apply_filter_scan, active_range in *.
  destruct (_buf q) as [buf|]; [|done].
  destruct (Nat.leb_spec (index q) (capacity q)) as [_|?]; [|done].
  rewrite (keeper_search_ext f g); [done|simpl; lia|]. simpl.
  intros x Hx. apply Hfg. by rewrite <- Hlen, slice_to_end in Hx.
Qed.

Lemma apply_filter_predicate_ext_witness :
  queue_ok tail4 ∧
  (∀ x, x ∈ active_range tail4 → discards_B_D x = discards_B x) ∧
  apply_filter_scan discards_B_D tail4 = apply_filter_scan discards_B tail4.
Proof.
  assert (Hok : queue_ok tail4) by (split; [vm_compute; lia|reflexivity]).
  assert (Hfg : ∀ x, x ∈ active_range tail4 → discards_B_D x = discards_B x).
  { intros x Hx. unfold active_range in Hx. simpl in Hx.
    rewrite !elem_of_cons, elem_of_nil in Hx.
    destruct Hx as [->|[->|[]]]; reflexivity. }
  split; [exact Hok|]. split; [exact Hfg|].
  apply (apply_filter_predicate_ext discards_B_D discards_B tail4 Hok Hfg).
Defined.
